(** * Windows stdio client helpers ([mcp/client/stdio/win32.py])

    A shallow embedding of the three parts of the module:
    - [get_windows_executable_command], the executable resolver;
    - [FallbackProcess], the adapter that wraps a [subprocess.Popen] object
      and tears it down on scoped exit;
    - [create_windows_process], the two-tier launcher.

    Python exceptions are modelled by an explicit result type; the calls the
    module makes into the standard library and anyio ([shutil.which],
    [subprocess.Popen], [Popen.terminate], [Popen.wait], file [close],
    stream [aclose]) are calls into an environment that may answer or raise. *)

From stdpp Require Import gmap strings list.
From Stdlib Require Import ZArith.

Open Scope string_scope.
Open Scope list_scope.

(** ** Exceptions *)

(** The exception classes the environment may raise.  [KeyboardInterrupt],
    [SystemExit] and [CancelledError] derive from [BaseException] only. *)
Inductive exn : Set :=
  | OSError
  | PermissionError
  | FileNotFoundError
  | BrokenPipeError
  | NotImplementedError
  | ValueError
  | TypeError
  | KeyboardInterrupt
  | SystemExit
  | CancelledError.

(** [isinstance(e, OSError)] *)
Definition isinstance_OSError (e : exn) : bool :=
  match e with
  | OSError | PermissionError | FileNotFoundError | BrokenPipeError => true
  | _ => false
  end.

(** [isinstance(e, Exception)] *)
Definition isinstance_Exception (e : exn) : bool :=
  match e with
  | KeyboardInterrupt | SystemExit | CancelledError => false
  | _ => true
  end.

(** The result of evaluating a Python expression or block. *)
Inductive outcome (A : Type) : Type :=
  | Returns (a : A)
  | Raises (e : exn).
Arguments Returns {A} a.
Arguments Raises {A} e.

#[global] Instance outcome_ret : MRet outcome := fun _ a => Returns a.
#[global] Instance outcome_bind : MBind outcome := fun _ _ k c =>
  match c with
  | Returns a => k a
  | Raises e => Raises e
  end.

(** [try: body except <class>: handler], for a pure body. *)
Definition try_except {A} (body : outcome A) (caught : exn -> bool)
    (handler : outcome A) : outcome A :=
  match body with
  | Returns a => Returns a
  | Raises e => if caught e then handler else Raises e
  end.

(** ** The executable resolver *)

(** The suffixes of line 34, in the order the loop visits them. *)
Definition windows_extensions : list string := [".cmd"; ".bat"; ".exe"; ".ps1"].

Section Resolver.

(** [shutil.which] in the environment of the call: a path, [None], or an
    exception. *)
Variable which : string -> outcome (option string).

(** The loop of lines 34-37 followed by line 40: the first truthy lookup
    result is returned; when the suffixes are exhausted the command itself
    is.  ([if ext_path := ...] tests truthiness: [None] and the empty
    string both fail it.) *)
Fixpoint for_ext (command : string) (exts : list string) : outcome string :=
  match exts with
  | [] => Returns command
  | ext :: exts' =>
      let ext_version := command +:+ ext in
      ext_path ← which ext_version;
      match ext_path with
      | Some p => if decide (p = "") then for_ext command exts' else Returns p
      | None => for_ext command exts'
      end
  end.

Definition get_windows_executable_command (command : string) : outcome string :=
  try_except
    (command_path ← which command;
     match command_path with
     | Some p =>
         if decide (p = "") then for_ext command windows_extensions
         else Returns p
     | None => for_ext command windows_extensions
     end)
    isinstance_OSError
    (Returns command).

End Resolver.

(** ** The environment of the adapter and of the launcher *)

(** Raw file objects and child processes are known by their identity. *)
Abbreviation handle := nat (only parsing).
Abbreviation traceback := nat (only parsing).

Module subprocess.

(** The [stdin]/[stdout] arguments the launcher passes. *)
Inductive stdio : Set := PIPE.

(** The attributes of a [subprocess.Popen] object the adapter reads; an
    endpoint that was not requested as a pipe is [None]. *)
Record Popen : Set := {
  pid : nat;
  stdin : option handle;
  stdout : option handle;
  stderr : option handle;
}.

(** The keyword arguments of one [subprocess.Popen(...)] call;
    [creationflags = None] when the keyword is not passed. *)
Record request : Type := {
  args : list string;
  stdin_arg : stdio;
  stdout_arg : stdio;
  stderr_arg : option handle;
  env_arg : option (gmap string string);
  cwd_arg : option string;
  bufsize : Z;
  creationflags : option Z;
}.

End subprocess.

(** The values the methods return. *)
Inductive pyvalue : Set :=
  | PyNone
  | PyInt (z : Z).

Definition truthy (v : pyvalue) : bool :=
  match v with
  | PyNone => false
  | PyInt z => negb (z =? 0)%Z
  end.

(** The calls the adapter makes on the objects it owns. *)
Inductive call : Set :=
  | Popen_terminate (p : nat)             (* popen.terminate() *)
  | run_sync_Popen_wait (p : nat)         (* to_thread.run_sync(popen.wait) *)
  | FileWriteStream_aclose (f : handle)   (* aclose() of the stream over f *)
  | FileReadStream_aclose (f : handle)    (* aclose() of the stream over f *)
  | file_close (f : handle).              (* f.close() *)

#[global] Instance call_eq_dec : EqDecision call.
Proof. solve_decision. Defined.

(** The store shared by the adapter and the objects it holds. *)
Record world : Type := {
  returncode : gmap nat Z;   (* Popen.returncode of the children reaped *)
  signalled : gset nat;      (* children a termination request was sent to *)
  closed : gset nat;         (* file objects whose [closed] flag is set *)
  os_closes : list nat;      (* descriptors released, oldest first *)
  calls : list call;         (* calls made by the adapter, oldest first *)
  spawns : list subprocess.request;  (* Popen(...) calls made, oldest first *)
}.

Definition empty_world : world :=
  {| returncode := ∅; signalled := ∅; closed := ∅; os_closes := [];
     calls := []; spawns := [] |}.

(** What the platform decides: which calls raise, the status a child exits
    with, what a spawn attempt yields, and whether [subprocess] has the
    attribute [CREATE_NO_WINDOW]. *)
Record environment : Type := {
  fault : call -> world -> option exn;
  exit_status : nat -> Z;
  spawn : subprocess.request -> world -> outcome subprocess.Popen;
  CREATE_NO_WINDOW : option Z;
}.

Definition record_call (c : call) (w : world) : world :=
  {| returncode := returncode w; signalled := signalled w; closed := closed w;
     os_closes := os_closes w; calls := calls w ++ [c]; spawns := spawns w |}.

Definition record_spawn (r : subprocess.request) (w : world) : world :=
  {| returncode := returncode w; signalled := signalled w; closed := closed w;
     os_closes := os_closes w; calls := calls w; spawns := spawns w ++ [r] |}.

(** [close()] of a file object, as [io] documents it: the descriptor is
    released the first time; on a file already closed the call has no
    effect. *)
Definition close_file (f : handle) (w : world) : world :=
  if decide (f ∈ closed w) then w
  else {| returncode := returncode w; signalled := signalled w;
          closed := {[f]} ∪ closed w; os_closes := os_closes w ++ [f];
          calls := calls w; spawns := spawns w |}.

(** [Popen.terminate()], as [subprocess] implements it: nothing is done for
    a child whose return code is known, else the termination request is
    sent. *)
Definition terminate_process (p : nat) (w : world) : world :=
  match returncode w !! p with
  | Some _ => w
  | None =>
      {| returncode := returncode w; signalled := {[p]} ∪ signalled w;
         closed := closed w; os_closes := os_closes w;
         calls := calls w; spawns := spawns w |}
  end.

(** [Popen.wait()], as [subprocess] implements it: the stored return code,
    which the first wait sets from the exit status of the child. *)
Definition wait_process (E : environment) (p : nat) (w : world) : Z * world :=
  match returncode w !! p with
  | Some rc => (rc, w)
  | None =>
      (exit_status E p,
       {| returncode := <[p := exit_status E p]> (returncode w);
          signalled := signalled w; closed := closed w;
          os_closes := os_closes w; calls := calls w; spawns := spawns w |})
  end.

(** A call that does not raise: its value and its effect.  A stream's
    [aclose()] runs [close()] of the file object it wraps (anyio hands it
    to a worker thread), so the stream and the raw handle the adapter keeps
    share one file. *)
Definition answer (E : environment) (c : call) (w : world) : pyvalue * world :=
  match c with
  | Popen_terminate p => (PyNone, terminate_process p w)
  | run_sync_Popen_wait p => let (rc, w') := wait_process E p w in (PyInt rc, w')
  | FileWriteStream_aclose f => (PyNone, close_file f w)
  | FileReadStream_aclose f => (PyNone, close_file f w)
  | file_close f => (PyNone, close_file f w)
  end.

(** ** Stateful computations that may raise *)

Definition M (A : Type) : Type := world -> outcome A * world.

#[global] Instance M_ret : MRet M := fun _ a w => (Returns a, w).
#[global] Instance M_bind : MBind M := fun _ _ k c w =>
  match c w with
  | (Returns a, w') => k a w'
  | (Raises e, w') => (Raises e, w')
  end.

(** [try: body except <class>: handler] *)
Definition try_except_M {A} (body : M A) (caught : exn -> bool)
    (handler : M A) : M A := fun w =>
  match body w with
  | (Returns a, w') => (Returns a, w')
  | (Raises e, w') => if caught e then handler w' else (Raises e, w')
  end.

(** One call into the environment: it is recorded, then raises or answers. *)
Definition invoke (E : environment) (c : call) : M pyvalue := fun w =>
  match fault E c w with
  | Some e => (Raises e, record_call c w)
  | None =>
      let (v, w') := answer E c (record_call c w) in (Returns v, w')
  end.

(** [subprocess.Popen(...)] *)
Definition subprocess_Popen (E : environment) (r : subprocess.request)
    : M subprocess.Popen := fun w =>
  (spawn E r w, record_spawn r w).

(** ** The adapter *)

Record FileWriteStream : Set := { wfile : handle }.
Record FileReadStream : Set := { rfile : handle }.

Record FallbackProcess : Set := {
  popen : subprocess.Popen;
  stdin_raw : option handle;
  stdout_raw : option handle;
  stderr : option handle;
  stdin : option FileWriteStream;
  stdout : option FileReadStream;
}.

(** A file object is truthy, so [x if self.stdin_raw else None] tests
    presence. *)
Definition __init__ (popen_obj : subprocess.Popen) : FallbackProcess :=
  let stdin_raw := subprocess.stdin popen_obj in
  let stdout_raw := subprocess.stdout popen_obj in
  {| popen := popen_obj;
     stdin_raw := stdin_raw;
     stdout_raw := stdout_raw;
     stderr := subprocess.stderr popen_obj;
     stdin := match stdin_raw with
              | Some f => Some {| wfile := f |}
              | None => None
              end;
     stdout := match stdout_raw with
               | Some f => Some {| rfile := f |}
               | None => None
               end |}.

Section Adapter.

Variable E : environment.

(** [if x: <call on x>] *)
Definition if_present {A} (x : option A) (f : A -> M pyvalue) : M unit :=
  match x with
  | Some a => _ ← f a; mret tt
  | None => mret tt
  end.

Definition __aenter__ (self : FallbackProcess) : M FallbackProcess :=
  mret self.

Definition __aexit__ (self : FallbackProcess) (exc_type exc_val : option exn)
    (exc_tb : option traceback) : M pyvalue :=
  _ ← invoke E (Popen_terminate (subprocess.pid (popen self)));
  _ ← invoke E (run_sync_Popen_wait (subprocess.pid (popen self)));
  _ ← if_present (stdin self)
        (fun s => invoke E (FileWriteStream_aclose (wfile s)));
  _ ← if_present (stdout self)
        (fun s => invoke E (FileReadStream_aclose (rfile s)));
  _ ← if_present (stdin_raw self) (fun f => invoke E (file_close f));
  _ ← if_present (stdout_raw self) (fun f => invoke E (file_close f));
  _ ← if_present (stderr self) (fun f => invoke E (file_close f));
  mret PyNone.

Definition wait (self : FallbackProcess) : M pyvalue :=
  invoke E (run_sync_Popen_wait (subprocess.pid (popen self))).

Definition terminate (self : FallbackProcess) : M pyvalue :=
  invoke E (Popen_terminate (subprocess.pid (popen self))).

Definition kill (self : FallbackProcess) : M pyvalue :=
  _ ← terminate self; mret PyNone.

(** [async with cm as p: body] as the language defines it: the exit
    method receives the exception of the body, which is re-raised unless
    the method returns a truthy value. *)
Definition async_with (cm : FallbackProcess) (tb : traceback)
    (body : FallbackProcess -> M unit) : M unit := fun w =>
  match __aenter__ cm w with
  | (Raises e, w1) => (Raises e, w1)
  | (Returns p, w1) =>
      match body p w1 with
      | (Returns _, w2) =>
          match __aexit__ cm None None None w2 with
          | (Returns _, w3) => (Returns tt, w3)
          | (Raises e', w3) => (Raises e', w3)
          end
      | (Raises e, w2) =>
          match __aexit__ cm (Some e) (Some e) (Some tb) w2 with
          | (Returns v, w3) =>
              if truthy v then (Returns tt, w3) else (Raises e, w3)
          | (Raises e', w3) => (Raises e', w3)
          end
      end
  end.

(** ** The launcher *)

(** [getattr(subprocess, "CREATE_NO_WINDOW", 0)] *)
Definition getattr_CREATE_NO_WINDOW (dflt : Z) : Z :=
  default dflt (CREATE_NO_WINDOW E).

Definition create_windows_process (command : string) (args : list string)
    (env : option (gmap string string)) (errlog : option handle)
    (cwd : option string) : M FallbackProcess :=
  try_except_M
    (popen_obj ← subprocess_Popen E
       {| subprocess.args := command :: args;
          subprocess.stdin_arg := subprocess.PIPE;
          subprocess.stdout_arg := subprocess.PIPE;
          subprocess.stderr_arg := errlog;
          subprocess.env_arg := env;
          subprocess.cwd_arg := cwd;
          subprocess.bufsize := 0;
          subprocess.creationflags := Some (getattr_CREATE_NO_WINDOW 0) |};
     mret (__init__ popen_obj))
    isinstance_Exception
    (popen_obj ← subprocess_Popen E
       {| subprocess.args := command :: args;
          subprocess.stdin_arg := subprocess.PIPE;
          subprocess.stdout_arg := subprocess.PIPE;
          subprocess.stderr_arg := errlog;
          subprocess.env_arg := env;
          subprocess.cwd_arg := cwd;
          subprocess.bufsize := 0;
          subprocess.creationflags := None |};
     mret (__init__ popen_obj)).

End Adapter.

(** ** Specification vocabulary *)

(** A lookup result the resolver accepts: a non-empty path. *)
Definition hit (r : outcome (option string)) (p : string) : Prop :=
  r = Returns (Some p) ∧ p ≠ "".

(** A lookup that returned without finding anything. *)
Definition miss (r : outcome (option string)) : Prop :=
  r = Returns None ∨ r = Returns (Some "").

(** The resolver as the specification words its edge case: a lookup that
    raises counts as not found and the search goes on. *)
Definition lookup_or_not_found (which : string -> outcome (option string))
    (name : string) : option string :=
  match which name with
  | Returns (Some p) => if decide (p = "") then None else Some p
  | Returns None => None
  | Raises _ => None
  end.

Fixpoint first_found (look : string -> option string) (names : list string)
    : option string :=
  match names with
  | [] => None
  | n :: names' =>
      match look n with
      | Some p => Some p
      | None => first_found look names'
      end
  end.

Definition resolve_skipping_errors (which : string -> outcome (option string))
    (command : string) : string :=
  default command
    (first_found (lookup_or_not_found which)
       (command :: map (fun ext => command +:+ ext) windows_extensions)).

(** The names the resolver may look up: the command, then the command with
    each suffix. *)
Definition candidates (command : string) : list string :=
  command :: map (fun ext => command +:+ ext) windows_extensions.

(** The teardown steps in the order the specification lists them. *)
Definition step_if_present {A} (x : option A) (c : A -> call) : list call :=
  match x with
  | Some a => [c a]
  | None => []
  end.

Definition closing_steps (self : FallbackProcess) : list call :=
  step_if_present (stdin self) (fun s => FileWriteStream_aclose (wfile s)) ++
  step_if_present (stdout self) (fun s => FileReadStream_aclose (rfile s)) ++
  step_if_present (stdin_raw self) file_close ++
  step_if_present (stdout_raw self) file_close ++
  step_if_present (stderr self) file_close.

Definition teardown_steps (self : FallbackProcess) : list call :=
  Popen_terminate (subprocess.pid (popen self)) ::
  run_sync_Popen_wait (subprocess.pid (popen self)) ::
  closing_steps self.

(** Calls made one after the other, stopping at the first that raises. *)
Fixpoint run_steps (E : environment) (l : list call) : M unit :=
  match l with
  | [] => mret tt
  | c :: l' => _ ← invoke E c; run_steps E l'
  end.

(** The object a call acts on has already been reaped, respectively closed. *)
Definition finished (c : call) (w : world) : Prop :=
  match c with
  | Popen_terminate p => is_Some (returncode w !! p)
  | run_sync_Popen_wait p => is_Some (returncode w !! p)
  | FileWriteStream_aclose f => f ∈ closed w
  | FileReadStream_aclose f => f ∈ closed w
  | file_close f => f ∈ closed w
  end.

(** The library guarantee teardown relies on: terminating or waiting for a
    reaped child and closing a closed file do not raise. *)
Definition no_fault_when_finished (E : environment) : Prop :=
  ∀ c w, finished c w → fault E c w = None.

(** ** Concrete environments *)

(** Nothing on the search path. *)
Definition which_nothing : string -> outcome (option string) :=
  fun _ => Returns None.

(** A lookup that rejects its argument. *)
Definition which_value_error : string -> outcome (option string) :=
  fun _ => Raises ValueError.

(** [npx.cmd] cannot be examined, [npx.bat] is on the path. *)
Definition which_npx_denied : string -> outcome (option string) :=
  fun name =>
    if decide (name = "npx.cmd") then Raises PermissionError
    else if decide (name = "npx.bat") then Returns (Some "C:/tools/npx.bat")
    else Returns None.

(** Only [uvx.exe] is on the path. *)
Definition which_uvx_exe : string -> outcome (option string) :=
  fun name =>
    if decide (name = "uvx.exe") then Returns (Some "C:/bin/uvx.exe")
    else Returns None.

(** [uvx.exe] and, besides, [git] are on the path. *)
Definition which_uvx_exe_and_git : string -> outcome (option string) :=
  fun name =>
    if decide (name = "uvx.exe") then Returns (Some "C:/bin/uvx.exe")
    else if decide (name = "git") then Returns (Some "C:/bin/git.exe")
    else Returns None.

(** A child with all three endpoints piped. *)
Definition child : subprocess.Popen :=
  {| subprocess.pid := 1; subprocess.stdin := Some 3;
     subprocess.stdout := Some 4; subprocess.stderr := Some 5 |}.

(** A platform where no call raises and every spawn yields [child]. *)
Definition quiet : environment :=
  {| fault := fun _ _ => None;
     exit_status := fun _ => 1%Z;
     spawn := fun _ _ => Returns child;
     CREATE_NO_WINDOW := Some 134217728%Z |}.

(** A platform where closing the write stream fails. *)
Definition broken_write_stream : environment :=
  {| fault := fun c _ =>
       match c with
       | FileWriteStream_aclose _ => Some BrokenPipeError
       | _ => None
       end;
     exit_status := fun _ => 1%Z;
     spawn := fun _ _ => Returns child;
     CREATE_NO_WINDOW := Some 134217728%Z |}.


(** A platform that rejects non-zero creation flags, as non-Windows
    interpreters do. *)
Definition no_creationflags : environment :=
  {| fault := fun _ _ => None;
     exit_status := fun _ => 0%Z;
     spawn := fun r _ =>
       match subprocess.creationflags r with
       | Some (Zpos _) | Some (Zneg _) => Raises ValueError
       | _ => Returns child
       end;
     CREATE_NO_WINDOW := Some 134217728%Z |}.

(** * Properties of the resolver *)

Section ResolverFacts.

Variable which : string -> outcome (option string).
Variable command : string.

Lemma for_ext_step_miss ext exts :
  miss (which (command +:+ ext)) →
  for_ext which command (ext :: exts) = for_ext which command exts.
Proof.
  intros [H | H]; simpl; rewrite H; simpl; [done |].
  by destruct (decide ("" = "")).
Qed.

Lemma for_ext_step_hit ext exts p :
  hit (which (command +:+ ext)) p →
  for_ext which command (ext :: exts) = Returns p.
Proof.
  intros [H Hp]; simpl; rewrite H; simpl.
  by destruct (decide (p = "")).
Qed.

Lemma for_ext_step_raise ext exts e :
  which (command +:+ ext) = Raises e →
  for_ext which command (ext :: exts) = Raises e.
Proof. intros H; simpl; by rewrite H. Qed.

(** The loop returns the path of the first suffix that hits. *)
Lemma for_ext_first_hit exts i ext p :
  exts !! i = Some ext →
  (∀ j ext', j < i → exts !! j = Some ext' → miss (which (command +:+ ext'))) →
  hit (which (command +:+ ext)) p →
  for_ext which command exts = Returns p.
Proof.
  revert i; induction exts as [| x exts IH]; intros i Hi Hbefore Hhit.
  - done.
  - destruct i as [| i]; simpl in Hi.
    + injection Hi as ->. by apply for_ext_step_hit.
    + rewrite for_ext_step_miss.
      * apply (IH i); [done | | done].
        intros j ext' Hj Hl. apply (Hbefore (S j) ext'); [lia | done].
      * apply (Hbefore 0 x); [lia | done].
Qed.

(** The loop stops at the first suffix whose lookup raises. *)
Lemma for_ext_first_raise exts i ext e :
  exts !! i = Some ext →
  (∀ j ext', j < i → exts !! j = Some ext' → miss (which (command +:+ ext'))) →
  which (command +:+ ext) = Raises e →
  for_ext which command exts = Raises e.
Proof.
  revert i; induction exts as [| x exts IH]; intros i Hi Hbefore Hraise.
  - done.
  - destruct i as [| i]; simpl in Hi.
    + injection Hi as ->. by apply for_ext_step_raise.
    + rewrite for_ext_step_miss.
      * apply (IH i); [done | | done].
        intros j ext' Hj Hl. apply (Hbefore (S j) ext'); [lia | done].
      * apply (Hbefore 0 x); [lia | done].
Qed.

Lemma for_ext_all_miss exts :
  (∀ ext, ext ∈ exts → miss (which (command +:+ ext))) →
  for_ext which command exts = Returns command.
Proof.
  induction exts as [| x exts IH]; intros Hall; [done |].
  rewrite for_ext_step_miss.
  - apply IH. intros ext Hext. apply Hall. by right.
  - apply Hall. by left.
Qed.

(** Whatever the loop returns is the command or a non-empty path, and
    whatever it raises was raised by a lookup. *)
Lemma for_ext_result exts :
  match for_ext which command exts with
  | Returns s => s = command ∨ s ≠ ""
  | Raises e => ∃ name, which name = Raises e
  end.
Proof.
  induction exts as [| x exts IH]; simpl; [by left |].
  destruct (which (command +:+ x)) as [[p |] | e] eqn:Hw; simpl.
  - destruct (decide (p = "")); [done | by right].
  - done.
  - by exists (command +:+ x).
Qed.

Lemma resolver_bare_hit p :
  hit (which command) p →
  get_windows_executable_command which command = Returns p.
Proof.
  intros [H Hp]. unfold get_windows_executable_command.
  rewrite H; simpl. by destruct (decide (p = "")).
Qed.

(** After a bare miss the resolver is the loop under the handler. *)
Lemma resolver_bare_miss :
  miss (which command) →
  get_windows_executable_command which command =
  try_except (for_ext which command windows_extensions)
    isinstance_OSError (Returns command).
Proof.
  intros [H | H]; unfold get_windows_executable_command; rewrite H; simpl;
    [done |].
  by destruct (decide ("" = "")).
Qed.

Lemma resolver_bare_raise e :
  which command = Raises e →
  get_windows_executable_command which command =
  if isinstance_OSError e then Returns command else Raises e.
Proof.
  intros H. unfold get_windows_executable_command. by rewrite H.
Qed.

End ResolverFacts.

(** C6. The resolver's algorithm: the suffix list is [.cmd, .bat, .exe,
    .ps1]; a bare command that the lookup resolves is answered with the
    resolved path; otherwise the suffixes are appended in that order and the
    first candidate that resolves gives the answer; when neither the bare
    command nor any candidate resolves, the command comes back unmodified. *)
Theorem resolver_algorithm (which : string -> outcome (option string))
    (command : string) :
  windows_extensions = [".cmd"; ".bat"; ".exe"; ".ps1"] ∧
  (∀ p, hit (which command) p →
        get_windows_executable_command which command = Returns p) ∧
  (∀ i ext p,
      miss (which command) →
      windows_extensions !! i = Some ext →
      (∀ j ext', j < i → windows_extensions !! j = Some ext' →
                 miss (which (command +:+ ext'))) →
      hit (which (command +:+ ext)) p →
      get_windows_executable_command which command = Returns p) ∧
  (miss (which command) →
   (∀ ext, ext ∈ windows_extensions → miss (which (command +:+ ext))) →
   get_windows_executable_command which command = Returns command).
Proof.
  split; [done |]. split; [| split].
  - apply resolver_bare_hit.
  - intros i ext p Hbare Hi Hbefore Hhit.
    rewrite resolver_bare_miss by done.
    by rewrite (for_ext_first_hit which command _ i ext p).
  - intros Hbare Hall.
    rewrite resolver_bare_miss by done.
    by rewrite for_ext_all_miss.
Qed.

(** With only [uvx.exe] on the path, [uvx] resolves to it through the
    third suffix. *)
Lemma resolver_algorithm_witness :
  get_windows_executable_command which_uvx_exe "uvx" = Returns "C:/bin/uvx.exe".
Proof.
  destruct (resolver_algorithm which_uvx_exe "uvx") as (_ & _ & Hfirst & _).
  apply (Hfirst 2 ".exe").
  - by left.
  - reflexivity.
  - intros j ext' Hj Hl.
    destruct j as [| [| j]]; [| | lia]; injection Hl as <-; by left.
  - split; [reflexivity | done].
Defined.

(** When no lookup raises, the resolver is the first-hit search over the
    bare command followed by the four suffixed candidates. *)
Lemma for_ext_search (which : string -> outcome (option string))
    (command : string) (exts : list string) :
  (∀ name e, which name ≠ Raises e) →
  for_ext which command exts =
  Returns (default command
             (first_found (lookup_or_not_found which)
                (map (fun ext => command +:+ ext) exts))).
Proof.
  intros Hno. induction exts as [| x exts IH]; [done |].
  simpl. unfold lookup_or_not_found at 1.
  destruct (which (command +:+ x)) as [[p |] | e] eqn:Hw; simpl.
  - by destruct (decide (p = "")).
  - done.
  - by destruct (Hno _ _ Hw).
Qed.

Lemma resolver_search_without_errors
    (which : string -> outcome (option string)) (command : string) :
  (∀ name e, which name ≠ Raises e) →
  get_windows_executable_command which command =
  Returns (resolve_skipping_errors which command).
Proof.
  intros Hno.
  unfold get_windows_executable_command, resolve_skipping_errors.
  rewrite (for_ext_search which command windows_extensions Hno).
  cbn [first_found].
  assert (Hbare : lookup_or_not_found which command =
                  match which command with
                  | Returns (Some p) => if decide (p = "") then None else Some p
                  | _ => None
                  end).
  { unfold lookup_or_not_found. by destruct (which command) as [[p |] | e]. }
  rewrite Hbare. clear Hbare.
  destruct (which command) as [[p |] | e] eqn:Hw; simpl.
  - by destruct (decide (p = "")).
  - done.
  - by destruct (Hno _ _ Hw).
Qed.

(** C4, as the code has it: when the lookup raises nothing but [OSError]
    (or a subclass), the resolver returns, and what it returns is the
    command itself or a non-empty path; so the answer is non-empty for a
    non-empty command. *)
Theorem resolver_total_on_oserror (which : string -> outcome (option string))
    (command : string) :
  (∀ name e, which name = Raises e → isinstance_OSError e = true) →
  ∃ s, get_windows_executable_command which command = Returns s ∧
       (s = command ∨ s ≠ "") ∧
       (command ≠ "" → s ≠ "").
Proof.
  intros Hos.
  assert (Hval : ∀ s, s = command ∨ s ≠ "" → command ≠ "" → s ≠ "").
  { intros s [-> | H] Hc; done. }
  assert (Hloop : ∃ s, try_except (for_ext which command windows_extensions)
                         isinstance_OSError (Returns command) = Returns s ∧
                       (s = command ∨ s ≠ "")).
  { pose proof (for_ext_result which command windows_extensions) as Hr.
    destruct (for_ext which command windows_extensions) as [s | e]; simpl.
    - by exists s.
    - destruct Hr as [name Hname]. rewrite (Hos _ _ Hname).
      exists command. split; [done | by left]. }
  destruct (which command) as [[p |] | e] eqn:Hw.
  - destruct (decide (p = "")) as [-> | Hp].
    + rewrite resolver_bare_miss by (by right).
      destruct Hloop as (s & Hs & Hv). exists s. eauto.
    + exists p. rewrite (resolver_bare_hit which command p) by done.
      split; [done |]. split; [by right | done].
  - rewrite resolver_bare_miss by (by left).
    destruct Hloop as (s & Hs & Hv). exists s. eauto.
  - rewrite (resolver_bare_raise which command e Hw), (Hos _ _ Hw).
    exists command. split; [done |]. split; [by left | done].
Qed.

Lemma resolver_total_on_oserror_witness :
  ∃ s, get_windows_executable_command which_npx_denied "npx" = Returns s ∧
       (s = "npx" ∨ s ≠ "") ∧ ("npx" ≠ "" → s ≠ "").
Proof.
  apply (resolver_total_on_oserror which_npx_denied "npx").
  intros name e. unfold which_npx_denied.
  destruct (decide (name = "npx.cmd")); [by intros [= <-] |].
  destruct (decide (name = "npx.bat")); done.
Defined.

(** C4 fails as stated: the empty command with nothing on the path comes
    back as the empty string, and an exception of the lookup that is not an
    [OSError] leaves the resolver. *)
Lemma resolver_empty_or_raising :
  get_windows_executable_command which_nothing "" = Returns "" ∧
  get_windows_executable_command which_value_error "uvx" = Raises ValueError.
Proof. split; reflexivity. Qed.

(** An exception of the bare lookup that is not an [OSError] is never
    caught. *)
Lemma resolver_propagates_other_errors
    (which : string -> outcome (option string)) (command : string) (e : exn) :
  which command = Raises e → isinstance_OSError e = false →
  get_windows_executable_command which command = Raises e.
Proof.
  intros Hw He. by rewrite (resolver_bare_raise which command e Hw), He.
Qed.

(** C5, as the code has it: an [OSError] raised by a lookup the resolver
    reaches, be it the bare command or a suffix candidate after misses,
    ends the search at once with the original command; no later candidate
    is consulted. *)
Theorem resolver_oserror_returns_command
    (which : string -> outcome (option string)) (command : string) (e : exn) :
  isinstance_OSError e = true →
  (which command = Raises e →
   get_windows_executable_command which command = Returns command) ∧
  (∀ i ext,
      miss (which command) →
      windows_extensions !! i = Some ext →
      (∀ j ext', j < i → windows_extensions !! j = Some ext' →
                 miss (which (command +:+ ext'))) →
      which (command +:+ ext) = Raises e →
      get_windows_executable_command which command = Returns command).
Proof.
  intros He. split.
  - intros Hw. by rewrite (resolver_bare_raise which command e Hw), He.
  - intros i ext Hbare Hi Hbefore Hraise.
    rewrite resolver_bare_miss by done.
    rewrite (for_ext_first_raise which command _ i ext e) by done.
    simpl. by rewrite He.
Qed.

Lemma resolver_oserror_returns_command_witness :
  get_windows_executable_command which_npx_denied "npx" = Returns "npx".
Proof.
  destruct (resolver_oserror_returns_command which_npx_denied "npx"
              PermissionError) as [_ Hsuffix]; [reflexivity |].
  apply (Hsuffix 0 ".cmd").
  - by left.
  - reflexivity.
  - intros j ext' Hj. lia.
  - reflexivity.
Defined.

(** C5 fails as stated: the lookup of [npx.cmd] raises [PermissionError]
    and [npx.bat] is on the path; a search that skipped the failing
    candidate would answer with [npx.bat], the resolver answers [npx]. *)
Lemma resolver_stops_at_oserror :
  which_npx_denied "npx.cmd" = Raises PermissionError ∧
  which_npx_denied "npx.bat" = Returns (Some "C:/tools/npx.bat") ∧
  resolve_skipping_errors which_npx_denied "npx" = "C:/tools/npx.bat" ∧
  get_windows_executable_command which_npx_denied "npx" = Returns "npx".
Proof. repeat split; reflexivity. Qed.

(** * Properties of the adapter *)

Section AdapterFacts.

Variable E : environment.

Lemma close_file_calls f w : calls (close_file f w) = calls w.
Proof. unfold close_file. by destruct (decide (f ∈ closed w)). Qed.

Lemma answer_calls c w : calls (answer E c w).2 = calls w.
Proof.
  destruct c as [p | p | f | f | f]; simpl; try apply close_file_calls.
  - unfold terminate_process. by destruct (returncode w !! p).
  - unfold wait_process. by destruct (returncode w !! p).
Qed.

(** What one call leaves behind. *)
Lemma invoke_cases c w :
  (∃ e, fault E c w = Some e ∧ invoke E c w = (Raises e, record_call c w)) ∨
  (fault E c w = None ∧
   invoke E c w = (Returns (answer E c (record_call c w)).1,
                   (answer E c (record_call c w)).2)).
Proof.
  unfold invoke. destruct (fault E c w) as [e |].
  - left. by exists e.
  - right. split; [done |]. by destruct (answer E c (record_call c w)).
Qed.

Lemma invoke_returns_calls c w v w' :
  invoke E c w = (Returns v, w') → calls w' = calls w ++ [c].
Proof.
  destruct (invoke_cases c w) as [(e & _ & ->) | [_ ->]]; [done |].
  intros [= _ <-]. by rewrite answer_calls.
Qed.

Lemma run_steps_cons c l w :
  run_steps E (c :: l) w =
  match invoke E c w with
  | (Returns _, w') => run_steps E l w'
  | (Raises e, w') => (Raises e, w')
  end.
Proof. reflexivity. Qed.

(** The teardown method runs its steps in the listed order and returns
    [None]. *)
Lemma aexit_run_steps self et ev tb w :
  __aexit__ E self et ev tb w =
  match run_steps E (teardown_steps self) w with
  | (Returns _, w') => (Returns PyNone, w')
  | (Raises e, w') => (Raises e, w')
  end.
Proof.
  destruct self as [p [a |] [b |] [c |] [[d] |] [[f] |]];
    unfold __aexit__, teardown_steps, closing_steps, if_present;
    cbn -[invoke];
    unfold mbind, M_bind, mret, M_ret;
    repeat (match goal with
            | |- context [invoke E ?c ?w] =>
                destruct (invoke E c w) as [[? | ?] ?]
            end; try reflexivity).
Qed.

(** The log of a run: every step when all return; otherwise the steps up
    to the one that raised, whose exception is the outcome, and nothing
    after it. *)
Lemma run_steps_log l w :
  match run_steps E l w with
  | (Returns _, w') => calls w' = calls w ++ l
  | (Raises e, w') =>
      ∃ done c rest w0,
        l = done ++ c :: rest ∧
        run_steps E done w = (Returns tt, w0) ∧
        calls w0 = calls w ++ done ∧
        fault E c w0 = Some e ∧
        w' = record_call c w0
  end.
Proof.
  revert w; induction l as [| c l IH]; intros w.
  - simpl. by rewrite app_nil_r.
  - rewrite run_steps_cons.
    destruct (invoke_cases c w) as [(e & Hf & Hi) | [Hf Hi]].
    + rewrite Hi. exists [], c, l, w. by rewrite app_nil_r.
    + rewrite Hi.
      set (w1 := (answer E c (record_call c w)).2) in *.
      assert (Hc : calls w1 = calls w ++ [c]).
      { subst w1. by rewrite answer_calls. }
      specialize (IH w1).
      destruct (run_steps E l w1) as [[[] | e] w'].
      * rewrite IH, Hc. by rewrite <- app_assoc.
      * destruct IH as (done & c' & rest & w0 & -> & Hrun & Hlog & Hfault & ->).
        exists (c :: done), c', rest, w0. split; [done |].
        split; [by rewrite run_steps_cons, Hi |].
        split; [| done].
        rewrite Hlog, Hc. by rewrite <- app_assoc.
Qed.

End AdapterFacts.

(** C1. Scoped exit performs its steps in one fixed order: [terminate()],
    the wait for process exit in a worker thread, the write stream if
    present, the read stream if present, the raw write and read handles if
    present, the raw error handle if present.  The calls it adds to the log
    are always an initial segment of that list, and the whole list when the
    method returns. *)
Theorem aexit_teardown_order (E : environment) (self : FallbackProcess)
    (exc_type exc_val : option exn) (exc_tb : option traceback) (w : world) :
  let plan :=
    [Popen_terminate (subprocess.pid (popen self));
     run_sync_Popen_wait (subprocess.pid (popen self))] ++
    step_if_present (stdin self) (fun s => FileWriteStream_aclose (wfile s)) ++
    step_if_present (stdout self) (fun s => FileReadStream_aclose (rfile s)) ++
    step_if_present (stdin_raw self) file_close ++
    step_if_present (stdout_raw self) file_close ++
    step_if_present (stderr self) file_close in
  let r := __aexit__ E self exc_type exc_val exc_tb w in
  ∃ done rest,
    plan = done ++ rest ∧
    calls r.2 = calls w ++ done ∧
    match r.1 with
    | Returns _ => rest = []
    | Raises _ => done ≠ []
    end.
Proof.
  intros plan r. subst r. rewrite aexit_run_steps.
  change plan with (teardown_steps self).
  pose proof (run_steps_log E (teardown_steps self) w) as Hlog.
  destruct (run_steps E (teardown_steps self) w) as [[[] | e] w']; simpl.
  - exists (teardown_steps self), []. by rewrite app_nil_r.
  - destruct Hlog as (done & c & rest & w0 & Hl & _ & Hc & _ & ->).
    exists (done ++ [c]), rest. rewrite Hl. simpl.
    split; [by rewrite <- app_assoc |].
    split; [by rewrite Hc, app_assoc |].
    by destruct done.
Qed.

(** With all endpoints piped and nothing raising, the seven steps in
    order. *)
Example aexit_teardown_order_child :
  calls (__aexit__ quiet (__init__ child) None None None empty_world).2 =
  [Popen_terminate 1; run_sync_Popen_wait 1;
   FileWriteStream_aclose 3; FileReadStream_aclose 4;
   file_close 3; file_close 4; file_close 5].
Proof. reflexivity. Qed.

(** C2, as the code has it: the steps run in sequence under no handler.
    When the method returns, every step was attempted.  When it raises, the
    steps before some step [c] had all returned, [c] raised the exception
    that leaves the method, and the world is the one [c] was called in with
    that call recorded: no later step was attempted. *)
Theorem aexit_stops_at_first_failure (E : environment) (self : FallbackProcess)
    (exc_type exc_val : option exn) (exc_tb : option traceback) (w : world) :
  match __aexit__ E self exc_type exc_val exc_tb w with
  | (Returns _, w') => calls w' = calls w ++ teardown_steps self
  | (Raises e, w') =>
      ∃ done c rest w0,
        teardown_steps self = done ++ c :: rest ∧
        run_steps E done w = (Returns tt, w0) ∧
        calls w0 = calls w ++ done ∧
        fault E c w0 = Some e ∧
        w' = record_call c w0
  end.
Proof.
  rewrite aexit_run_steps.
  pose proof (run_steps_log E (teardown_steps self) w) as Hlog.
  by destruct (run_steps E (teardown_steps self) w) as [[[] | e] w'].
Qed.

(** C2 fails as stated: when closing the write stream raises, the read
    stream, both raw handles and the error handle are never closed. *)
Lemma aexit_close_failure_skips_rest :
  closing_steps (__init__ child) =
    [FileWriteStream_aclose 3; FileReadStream_aclose 4;
     file_close 3; file_close 4; file_close 5] ∧
  (__aexit__ broken_write_stream (__init__ child) None None None empty_world).1 =
    Raises BrokenPipeError ∧
  calls (__aexit__ broken_write_stream (__init__ child) None None None
           empty_world).2 =
    [Popen_terminate 1; run_sync_Popen_wait 1; FileWriteStream_aclose 3] ∧
  os_closes (__aexit__ broken_write_stream (__init__ child) None None None
               empty_world).2 = [].
Proof. repeat split; reflexivity. Qed.

(** C8. [kill()] is [terminate()]: the same request to the process, the
    same outcome and the same resulting world, from every state. *)
Theorem kill_is_terminate (E : environment) (self : FallbackProcess) (w : world) :
  kill E self w = terminate E self w.
Proof.
  unfold kill, terminate, mbind, M_bind, mret, M_ret.
  destruct (invoke_cases E (Popen_terminate (subprocess.pid (popen self))) w)
    as [(e & _ & ->) | [_ ->]]; reflexivity.
Qed.

(** C9. Construction wraps the raw standard input in a write stream exactly
    when it is present, the raw standard output in a read stream exactly
    when it is present, leaves an absent side absent, and keeps the raw
    error endpoint as it is. *)
Theorem init_wraps_present_endpoints (popen_obj : subprocess.Popen) :
  let self := __init__ popen_obj in
  popen self = popen_obj ∧
  stdin_raw self = subprocess.stdin popen_obj ∧
  stdout_raw self = subprocess.stdout popen_obj ∧
  stderr self = subprocess.stderr popen_obj ∧
  stdin self = (fun f => {| wfile := f |}) <$> subprocess.stdin popen_obj ∧
  stdout self = (fun f => {| rfile := f |}) <$> subprocess.stdout popen_obj ∧
  (is_Some (stdin self) ↔ is_Some (subprocess.stdin popen_obj)) ∧
  (is_Some (stdout self) ↔ is_Some (subprocess.stdout popen_obj)).
Proof.
  destruct popen_obj as [p [i |] [o |] err]; simpl;
    repeat split; try done; intros [x Hx]; done.
Qed.

(** C10. The exception information plays no part in scoped exit: the
    method does the same with it as without; when it returns, it returns
    [None]; and an exception raised in the managed block is never
    swallowed: the block ends by raising, with that very exception when
    teardown itself returned. *)
Theorem aexit_ignores_exception_info (E : environment) (self : FallbackProcess)
    (exc_type exc_val : option exn) (exc_tb : option traceback) (w : world) :
  __aexit__ E self exc_type exc_val exc_tb w = __aexit__ E self None None None w ∧
  match (__aexit__ E self exc_type exc_val exc_tb w).1 with
  | Returns v => v = PyNone ∧ truthy v = false
  | Raises _ => True
  end ∧
  (∀ tb body e w1,
      body self w = (Raises e, w1) →
      ∃ e' w', async_with E self tb body w = (Raises e', w') ∧
               ((__aexit__ E self (Some e) (Some e) (Some tb) w1).1 =
                  Returns PyNone → e' = e)).
Proof.
  split; [by rewrite !aexit_run_steps |]. split.
  - rewrite aexit_run_steps.
    by destruct (run_steps E (teardown_steps self) w) as [[[] | e] w'].
  - intros tb body e w1 Hbody.
    unfold async_with, __aenter__, mret, M_ret. rewrite Hbody.
    rewrite aexit_run_steps.
    destruct (run_steps E (teardown_steps self) w1) as [[[] | e'] w']; simpl.
    + by exists e, w'.
    + by exists e', w'.
Qed.

(** * Repeated teardown *)

Section Idempotence.

Variable E : environment.

Lemma finished_record_call c c' w :
  finished c (record_call c' w) ↔ finished c w.
Proof. by destruct c. Qed.

(** A call on a finished object changes nothing. *)
Lemma answer_finished c w : finished c w → (answer E c w).2 = w.
Proof.
  destruct c as [p | p | f | f | f]; simpl.
  - intros [rc Hrc]. unfold terminate_process. by rewrite Hrc.
  - intros [rc Hrc]. unfold wait_process. by rewrite Hrc.
  - intros Hf. unfold close_file. by destruct (decide (f ∈ closed w)).
  - intros Hf. unfold close_file. by destruct (decide (f ∈ closed w)).
  - intros Hf. unfold close_file. by destruct (decide (f ∈ closed w)).
Qed.

(** Finished objects stay finished. *)
Lemma answer_keeps_finished c c' w :
  finished c w → finished c (answer E c' w).2.
Proof.
  destruct c' as [p | p | f | f | f]; simpl;
    unfold terminate_process, wait_process, close_file;
    try (destruct (returncode w !! p) eqn:Hp);
    try (destruct (decide (f ∈ closed w)));
    try done;
    destruct c as [q | q | g | g | g]; simpl; try done;
    try (intros Hq; destruct (decide (p = q)) as [-> | Hne];
         [by rewrite lookup_insert_eq | by rewrite lookup_insert_ne]);
    set_solver.
Qed.

(** Every call but [terminate] leaves its object finished. *)
Lemma answer_finishes c w :
  (∀ p, c ≠ Popen_terminate p) → finished c (answer E c w).2.
Proof.
  intros Hc. destruct c as [p | p | f | f | f]; simpl.
  - by destruct (Hc p).
  - unfold wait_process. destruct (returncode w !! p) eqn:Hp; simpl.
    + by rewrite Hp.
    + by rewrite lookup_insert_eq.
  - unfold close_file. destruct (decide (f ∈ closed w)); simpl; set_solver.
  - unfold close_file. destruct (decide (f ∈ closed w)); simpl; set_solver.
  - unfold close_file. destruct (decide (f ∈ closed w)); simpl; set_solver.
Qed.

Lemma run_steps_finishes l w w1 :
  run_steps E l w = (Returns tt, w1) →
  ∀ c, c ∈ l → (∀ p, c ≠ Popen_terminate p) → finished c w1.
Proof.
  revert w; induction l as [| c0 l IH]; intros w Hrun c Hin Hc.
  - by apply elem_of_nil in Hin.
  - rewrite run_steps_cons in Hrun.
    destruct (invoke_cases E c0 w) as [(e & _ & Hi) | [_ Hi]];
      rewrite Hi in Hrun; [done |].
    set (wa := (answer E c0 (record_call c0 w)).2) in *.
    destruct (decide (c ∈ l)) as [Hl | Hl]; [by apply (IH wa) |].
    apply elem_of_cons in Hin as [-> | Hin]; [| done].
    assert (Hfin : finished c0 wa) by (by apply answer_finishes).
    clear Hi Hl. revert Hfin Hrun. generalize wa. clear wa IH.
    induction l as [| c1 l IH]; intros wa Hfin Hrun.
    + by injection Hrun as <-.
    + rewrite run_steps_cons in Hrun.
      destruct (invoke_cases E c1 wa) as [(e & _ & Hi) | [_ Hi]];
        rewrite Hi in Hrun; [done |].
      apply IH in Hrun; [done |].
      apply answer_keeps_finished. by apply finished_record_call.
Qed.

(** Steps on finished objects all return and only extend the log. *)
Lemma run_steps_finished l w :
  no_fault_when_finished E →
  Forall (fun c => finished c w) l →
  ∃ w', run_steps E l w = (Returns tt, w') ∧
        returncode w' = returncode w ∧ signalled w' = signalled w ∧
        closed w' = closed w ∧ os_closes w' = os_closes w ∧
        calls w' = calls w ++ l.
Proof.
  intros Hlib. revert w; induction l as [| c l IH]; intros w Hall.
  - exists w. by rewrite app_nil_r.
  - apply Forall_cons in Hall as [Hc Hall].
    rewrite run_steps_cons.
    destruct (invoke_cases E c w) as [(e & Hf & _) | [_ ->]].
    + by rewrite (Hlib c w Hc) in Hf.
    + rewrite answer_finished by (by apply finished_record_call).
      destruct (IH (record_call c w)) as (w' & -> & ? & ? & ? & ? & Hlog).
      { eapply Forall_impl; [exact Hall |].
        intros c' Hc'. by apply finished_record_call. }
      exists w'. repeat split; try done.
      rewrite Hlog. simpl. by rewrite <- app_assoc.
Qed.

(** One call releases at most one descriptor, and only of a file that
    was open. *)
Lemma invoke_releases c w :
  (os_closes (invoke E c w).2 = os_closes w ∧
   closed (invoke E c w).2 = closed w) ∨
  (∃ f, (f ∉ closed w) ∧
        os_closes (invoke E c w).2 = os_closes w ++ [f] ∧
        closed (invoke E c w).2 = {[f]} ∪ closed w).
Proof.
  destruct (invoke_cases E c w) as [(e & _ & ->) | [_ ->]]; [by left |].
  destruct c as [p | p | f | f | f]; simpl;
    unfold terminate_process, wait_process, close_file; simpl;
    try (destruct (returncode w !! p); by left);
    (destruct (decide (f ∈ closed w)); [by left | right; by exists f]).
Qed.

(** A run releases each descriptor at most once, and none of a file
    that was already closed. *)
Lemma run_steps_releases l w :
  ∃ fs, os_closes (run_steps E l w).2 = os_closes w ++ fs ∧
        NoDup fs ∧
        (∀ f, f ∈ fs → f ∉ closed w) ∧
        (∀ f, f ∈ closed (run_steps E l w).2 ↔ f ∈ closed w ∨ f ∈ fs).
Proof.
  revert w; induction l as [| c l IH]; intros w.
  - exists []. simpl. rewrite app_nil_r.
    split; [done |]. split; [constructor |].
    split; [by intros f ?%elem_of_nil |].
    intros f. rewrite elem_of_nil. tauto.
  - rewrite run_steps_cons.
    pose proof (invoke_releases c w) as Hstep.
    destruct (invoke E c w) as [[v | e] wa] eqn:Hi; simpl in Hstep.
    + destruct (IH wa) as (fs & Hos & Hnd & Hopen & Hcl).
      destruct Hstep as [[Ho Hc] | (f & Hf & Ho & Hc)].
      * exists fs. rewrite Hos, Ho. split; [done |]. split; [done |].
        rewrite Hc in Hopen, Hcl. done.
      * exists (f :: fs). rewrite Hos, Ho.
        split; [by rewrite <- app_assoc |].
        split; [constructor; [| done] |].
        { intros Hin. apply Hopen in Hin. apply Hin. rewrite Hc.
          apply elem_of_union_l. by apply elem_of_singleton. }
        split.
        { intros g [-> | Hg]%elem_of_cons; [done |].
          apply Hopen in Hg. intros Hg'. apply Hg. rewrite Hc.
          by apply elem_of_union_r. }
        intros g.
        rewrite Hcl, Hc, elem_of_union, elem_of_singleton, elem_of_cons.
        tauto.
    + simpl. destruct Hstep as [[Ho Hc] | (f & Hf & Ho & Hc)].
      * exists []. rewrite Ho, app_nil_r.
        split; [done |]. split; [constructor |].
        split; [by intros g ?%elem_of_nil |].
        intros g. rewrite Hc, elem_of_nil. tauto.
      * exists [f]. rewrite Ho.
        split; [done |]. split; [apply NoDup_singleton |].
        split; [by intros g ->%list_elem_of_singleton |].
        intros g.
        rewrite Hc, elem_of_union, elem_of_singleton, list_elem_of_singleton.
        tauto.
Qed.

End Idempotence.

(** Where no call raises, teardown returns. *)
Lemma aexit_returns_without_fault (E : environment) (self : FallbackProcess)
    (exc_type exc_val : option exn) (exc_tb : option traceback) (w : world) :
  (∀ c w0, fault E c w0 = None) →
  ∃ w', __aexit__ E self exc_type exc_val exc_tb w = (Returns PyNone, w').
Proof.
  intros Hquiet. rewrite aexit_run_steps.
  pose proof (run_steps_log E (teardown_steps self) w) as Hlog.
  destruct (run_steps E (teardown_steps self) w) as [[[] | e] w'].
  - by exists w'.
  - destruct Hlog as (done & c & rest & w0 & _ & _ & _ & Hf & _).
    by rewrite Hquiet in Hf.
Qed.

(** The closing steps are stream and file closes only. *)
Lemma step_if_present_elem {A} (x : option A) (mk : A -> call) (c : call) :
  c ∈ step_if_present x mk → ∃ a, c = mk a.
Proof.
  destruct x as [a |]; simpl.
  - intros ->%list_elem_of_singleton. by exists a.
  - by intros ?%elem_of_nil.
Qed.

Lemma teardown_steps_terminate (self : FallbackProcess) (p : nat) :
  Popen_terminate p ∈ teardown_steps self → p = subprocess.pid (popen self).
Proof.
  unfold teardown_steps, closing_steps.
  rewrite !elem_of_cons, !elem_of_app.
  intros [[= ->] | [[=] | Hc]]; [done |].
  repeat (destruct Hc as [Hc | Hc];
          [by apply step_if_present_elem in Hc as [a [=]] |]).
  by apply step_if_present_elem in Hc as [a [=]].
Qed.

(** C3. Teardown can be invoked twice.  Provided the libraries keep their
    guarantee that terminating or waiting for a reaped child and closing a
    closed file do not raise, a teardown that returned is followed by one
    that returns as well; the first releases each descriptor at most once
    (the stream's close releases it, the raw handle's close that follows
    finds the file closed), and the second releases none and leaves the
    process and file state as it was. *)
Theorem aexit_twice (E : environment) (self : FallbackProcess)
    (exc_type exc_val : option exn) (exc_tb : option traceback)
    (exc_type' exc_val' : option exn) (exc_tb' : option traceback)
    (w w1 : world) :
  no_fault_when_finished E →
  __aexit__ E self exc_type exc_val exc_tb w = (Returns PyNone, w1) →
  (∃ fs, os_closes w1 = os_closes w ++ fs ∧ NoDup fs ∧
         ∀ f, f ∈ fs → f ∉ closed w) ∧
  ∃ w2, __aexit__ E self exc_type' exc_val' exc_tb' w1 = (Returns PyNone, w2) ∧
        os_closes w2 = os_closes w1 ∧
        closed w2 = closed w1 ∧
        returncode w2 = returncode w1 ∧
        calls w2 = calls w1 ++ teardown_steps self.
Proof.
  intros Hlib Hfirst. rewrite aexit_run_steps in Hfirst.
  destruct (run_steps E (teardown_steps self) w) as [[[] | e] wa] eqn:Hrun;
    [| done].
  injection Hfirst as ->. split.
  - destruct (run_steps_releases E (teardown_steps self) w)
      as (fs & Hos & Hnd & Hopen & _).
    rewrite Hrun in Hos. by exists fs.
  - pose proof (run_steps_finishes E _ _ _ Hrun) as Hfin.
    assert (Hwait : finished
              (run_sync_Popen_wait (subprocess.pid (popen self))) w1).
    { apply Hfin; [| done]. unfold teardown_steps.
      apply elem_of_cons; right. apply elem_of_cons; by left. }
    assert (Hall : Forall (fun c => finished c w1) (teardown_steps self)).
    { apply Forall_forall. intros c Hc.
      destruct c as [p | p | f | f | f]; try (by apply Hfin).
      apply teardown_steps_terminate in Hc as ->. exact Hwait. }
    destruct (run_steps_finished E _ _ Hlib Hall)
      as (w2 & Hsecond & Hrc & _ & Hcl & Hos & Hlog).
    exists w2. rewrite aexit_run_steps, Hsecond. done.
Qed.

Lemma aexit_twice_witness :
  ∃ w1,
    __aexit__ quiet (__init__ child) None None None empty_world =
      (Returns PyNone, w1) ∧
    (∃ fs, os_closes w1 = os_closes empty_world ++ fs ∧ NoDup fs ∧
           ∀ f, f ∈ fs → f ∉ closed empty_world) ∧
    ∃ w2, __aexit__ quiet (__init__ child) None None None w1 =
            (Returns PyNone, w2) ∧
          os_closes w2 = os_closes w1 ∧
          closed w2 = closed w1 ∧
          returncode w2 = returncode w1 ∧
          calls w2 = calls w1 ++ teardown_steps (__init__ child).
Proof.
  destruct (aexit_returns_without_fault quiet (__init__ child) None None None
              empty_world) as [w1 Hfirst]; [reflexivity |].
  exists w1. split; [exact Hfirst |].
  apply (aexit_twice quiet (__init__ child) None None None None None None
           empty_world w1); [| exact Hfirst].
  intros c w _. reflexivity.
Defined.

(** The piped child's three descriptors are released once each, although
    five closes are requested, and a second teardown releases none. *)
Example aexit_child_releases_once :
  os_closes (__aexit__ quiet (__init__ child) None None None empty_world).2 =
    [3; 4; 5] ∧
  os_closes
    (__aexit__ quiet (__init__ child) None None None
       (__aexit__ quiet (__init__ child) None None None empty_world).2).2 =
    [3; 4; 5] ∧
  (__aexit__ quiet (__init__ child) None None None
     (__aexit__ quiet (__init__ child) None None None empty_world).2).1 =
    Returns PyNone.
Proof. repeat split; reflexivity. Qed.

(** * Properties of the launcher *)

(** C7. The launcher makes at most two spawn attempts.  The first passes
    the console-suppression creation flag; when it succeeds its process is
    wrapped and returned.  When it raises an [Exception], one more attempt
    is made with the same arguments and no creation flag; its process is
    wrapped and returned, or its exception leaves the launcher uncaught. *)
Theorem create_windows_process_two_tier (E : environment) (command : string)
    (args : list string) (env : option (gmap string string))
    (errlog : option handle) (cwd : option string) (w : world) :
  let first :=
    {| subprocess.args := command :: args;
       subprocess.stdin_arg := subprocess.PIPE;
       subprocess.stdout_arg := subprocess.PIPE;
       subprocess.stderr_arg := errlog;
       subprocess.env_arg := env;
       subprocess.cwd_arg := cwd;
       subprocess.bufsize := 0;
       subprocess.creationflags := Some (default 0%Z (CREATE_NO_WINDOW E)) |} in
  let second :=
    {| subprocess.args := command :: args;
       subprocess.stdin_arg := subprocess.PIPE;
       subprocess.stdout_arg := subprocess.PIPE;
       subprocess.stderr_arg := errlog;
       subprocess.env_arg := env;
       subprocess.cwd_arg := cwd;
       subprocess.bufsize := 0;
       subprocess.creationflags := None |} in
  let w1 := record_spawn first w in
  let w2 := record_spawn second w1 in
  let r := create_windows_process E command args env errlog cwd w in
  (∀ p, spawn E first w = Returns p → r = (Returns (__init__ p), w1)) ∧
  (∀ e p, spawn E first w = Raises e → isinstance_Exception e = true →
          spawn E second w1 = Returns p → r = (Returns (__init__ p), w2)) ∧
  (∀ e e2, spawn E first w = Raises e → isinstance_Exception e = true →
           spawn E second w1 = Raises e2 → r = (Raises e2, w2)) ∧
  spawns w1 = spawns w ++ [first] ∧
  spawns w2 = spawns w ++ [first; second] ∧
  (r.2 = w1 ∨ r.2 = w2).
Proof.
  intros first second w1 w2 r. subst r.
  unfold create_windows_process, try_except_M, subprocess_Popen,
    getattr_CREATE_NO_WINDOW, mbind, M_bind, mret, M_ret.
  fold first second. fold w1. fold w2.
  split; [by intros p -> |].
  split; [by intros e p -> -> -> |].
  split; [by intros e e2 -> -> -> |].
  split; [done |].
  split; [simpl; by rewrite <- app_assoc |].
  destruct (spawn E first w) as [p | e]; [by left |].
  destruct (isinstance_Exception e); [| by left].
  right. by destruct (spawn E second w1).
Qed.

(** Where creation flags are rejected, the second attempt yields the
    adapter. *)
Lemma create_windows_process_two_tier_witness :
  (create_windows_process no_creationflags "uvx" ["mcp-server"] None None None
     empty_world).1 = Returns (__init__ child) ∧
  length (spawns (create_windows_process no_creationflags "uvx" ["mcp-server"]
                    None None None empty_world).2) = 2.
Proof.
  destruct (create_windows_process_two_tier no_creationflags "uvx"
              ["mcp-server"] None None None empty_world)
    as (_ & Hsecond & _).
  rewrite (Hsecond ValueError child); [by split | reflexivity ..].
Defined.

(** An exception that is not an [Exception] (a keyboard interrupt, say)
    leaves the launcher from the first attempt. *)
Lemma create_windows_process_base_exception (E : environment)
    (command : string) (args : list string) (env : option (gmap string string))
    (errlog : option handle) (cwd : option string) (w : world) (e : exn) :
  let first :=
    {| subprocess.args := command :: args;
       subprocess.stdin_arg := subprocess.PIPE;
       subprocess.stdout_arg := subprocess.PIPE;
       subprocess.stderr_arg := errlog;
       subprocess.env_arg := env;
       subprocess.cwd_arg := cwd;
       subprocess.bufsize := 0;
       subprocess.creationflags := Some (default 0%Z (CREATE_NO_WINDOW E)) |} in
  spawn E first w = Raises e → isinstance_Exception e = false →
  create_windows_process E command args env errlog cwd w =
    (Raises e, record_spawn first w).
Proof.
  intros first Hs He.
  unfold create_windows_process, try_except_M, subprocess_Popen,
    getattr_CREATE_NO_WINDOW, mbind, M_bind, mret, M_ret.
  fold first. by rewrite Hs, He.
Qed.

(** * Further properties of the resolver *)

(** What the suffix loop answers is the command or a non-empty path that
    the lookup of one suffixed name returned; what it raises, the lookup of
    one suffixed name raised. *)
Lemma for_ext_origin (which : string -> outcome (option string))
    (command : string) (exts : list string) :
  match for_ext which command exts with
  | Returns s =>
      s = command ∨
      (s ≠ "" ∧ ∃ ext, ext ∈ exts ∧ which (command +:+ ext) = Returns (Some s))
  | Raises e => ∃ ext, ext ∈ exts ∧ which (command +:+ ext) = Raises e
  end.
Proof.
  induction exts as [| x exts IH]; simpl; [by left |].
  assert (Hrest :
    match for_ext which command exts with
    | Returns s =>
        s = command ∨
        (s ≠ "" ∧
         ∃ ext, ext ∈ x :: exts ∧ which (command +:+ ext) = Returns (Some s))
    | Raises e => ∃ ext, ext ∈ x :: exts ∧ which (command +:+ ext) = Raises e
    end).
  { destruct (for_ext which command exts) as [s | e].
    - destruct IH as [-> | (Hs & ext & Hin & Hext)]; [by left |].
      right. split; [done |]. exists ext. split; [by right | done].
    - destruct IH as (ext & Hin & Hext). exists ext. split; [by right | done]. }
  destruct (which (command +:+ x)) as [[p |] | e] eqn:Hw; simpl.
  - destruct (decide (p = "")); [exact Hrest |].
    right. split; [done |]. exists x. split; [by left | done].
  - exact Hrest.
  - exists x. split; [by left | done].
Qed.

Lemma suffixed_candidate (command ext : string) :
  ext ∈ windows_extensions → command +:+ ext ∈ candidates command.
Proof.
  intros Hin. unfold candidates. apply elem_of_cons. right.
  apply list_elem_of_In, (in_map (fun e => command +:+ e)).
  by apply list_elem_of_In.
Qed.

(** X1. The resolver never invents a path: what it returns is the command
    itself or a non-empty path that the lookup returned for one of the five
    candidate names; what it raises is an exception, not an [OSError], that
    the lookup of a candidate raised. *)
Theorem resolver_answer_origin (which : string -> outcome (option string))
    (command : string) :
  match get_windows_executable_command which command with
  | Returns s =>
      s = command ∨
      (s ≠ "" ∧
       ∃ name, name ∈ candidates command ∧ which name = Returns (Some s))
  | Raises e =>
      isinstance_OSError e = false ∧
      ∃ name, name ∈ candidates command ∧ which name = Raises e
  end.
Proof.
  assert (Hloop :
    match try_except (for_ext which command windows_extensions)
            isinstance_OSError (Returns command) with
    | Returns s =>
        s = command ∨
        (s ≠ "" ∧
         ∃ name, name ∈ candidates command ∧ which name = Returns (Some s))
    | Raises e =>
        isinstance_OSError e = false ∧
        ∃ name, name ∈ candidates command ∧ which name = Raises e
    end).
  { pose proof (for_ext_origin which command windows_extensions) as Hr.
    destruct (for_ext which command windows_extensions) as [s | e]; simpl.
    - destruct Hr as [-> | (Hs & ext & Hin & Hext)]; [by left |].
      right. split; [done |]. exists (command +:+ ext).
      split; [by apply suffixed_candidate | done].
    - destruct Hr as (ext & Hin & Hext).
      destruct (isinstance_OSError e) eqn:He; [by left |].
      split; [done |]. exists (command +:+ ext).
      split; [by apply suffixed_candidate | done]. }
  destruct (which command) as [[p |] | e] eqn:Hw.
  - destruct (decide (p = "")) as [-> | Hp].
    + rewrite resolver_bare_miss by (by right). exact Hloop.
    + rewrite (resolver_bare_hit which command p) by done.
      right. split; [done |]. exists command. split; [by left | done].
  - rewrite resolver_bare_miss by (by left). exact Hloop.
  - rewrite (resolver_bare_raise which command e Hw).
    destruct (isinstance_OSError e) eqn:He; [by left |].
    split; [done |]. exists command. split; [by left | done].
Qed.

Lemma for_ext_ext (which which' : string -> outcome (option string))
    (command : string) (exts : list string) :
  (∀ ext, ext ∈ exts → which (command +:+ ext) = which' (command +:+ ext)) →
  for_ext which command exts = for_ext which' command exts.
Proof.
  induction exts as [| x exts IH]; intros Hagree; [done |].
  simpl. rewrite <- (Hagree x) by (by left).
  rewrite IH; [done |]. intros ext Hin. apply Hagree. by right.
Qed.

(** X2. The resolver consults the lookup at the five candidate names and
    nowhere else: two lookups that agree on the candidates give the same
    answer, whatever else is or is not on the path. *)
Theorem resolver_consults_only_candidates
    (which which' : string -> outcome (option string)) (command : string) :
  (∀ name, name ∈ candidates command → which name = which' name) →
  get_windows_executable_command which command =
  get_windows_executable_command which' command.
Proof.
  intros Hagree. unfold get_windows_executable_command.
  rewrite <- (Hagree command) by (by left).
  rewrite (for_ext_ext which which' command windows_extensions); [done |].
  intros ext Hin. apply Hagree. by apply suffixed_candidate.
Qed.

Lemma resolver_consults_only_candidates_witness :
  get_windows_executable_command which_uvx_exe "uvx" =
  get_windows_executable_command which_uvx_exe_and_git "uvx".
Proof.
  apply (resolver_consults_only_candidates which_uvx_exe
           which_uvx_exe_and_git "uvx").
  intros name Hin. unfold candidates in Hin. simpl in Hin.
  repeat (apply elem_of_cons in Hin as [-> | Hin]; [reflexivity |]).
  by apply elem_of_nil in Hin.
Defined.

(** X3. An exception that is not an [OSError] is not absorbed: raised by
    the bare lookup, or by a suffix candidate after misses, it leaves the
    resolver as it is. *)
Theorem resolver_other_error_propagates
    (which : string -> outcome (option string)) (command : string) (e : exn) :
  isinstance_OSError e = false →
  (which command = Raises e →
   get_windows_executable_command which command = Raises e) ∧
  (∀ i ext,
      miss (which command) →
      windows_extensions !! i = Some ext →
      (∀ j ext', j < i → windows_extensions !! j = Some ext' →
                 miss (which (command +:+ ext'))) →
      which (command +:+ ext) = Raises e →
      get_windows_executable_command which command = Raises e).
Proof.
  intros He. split.
  - intros Hw. by rewrite (resolver_bare_raise which command e Hw), He.
  - intros i ext Hbare Hi Hbefore Hraise.
    rewrite resolver_bare_miss by done.
    rewrite (for_ext_first_raise which command _ i ext e) by done.
    simpl. by rewrite He.
Qed.

Lemma resolver_other_error_propagates_witness :
  get_windows_executable_command which_value_error "uvx" = Raises ValueError.
Proof.
  destruct (resolver_other_error_propagates which_value_error "uvx"
              ValueError) as [Hbare _]; [reflexivity |].
  by apply Hbare.
Defined.

(** * Further properties of the adapter *)

Lemma closing_steps_in_teardown (self : FallbackProcess) (c : call) :
  c ∈ closing_steps self → c ∈ teardown_steps self.
Proof. intros Hc. unfold teardown_steps. by do 2 right. Qed.

Lemma run_sync_wait_in_teardown (self : FallbackProcess) :
  run_sync_Popen_wait (subprocess.pid (popen self)) ∈ teardown_steps self.
Proof. unfold teardown_steps. right. by left. Qed.

Lemma closing_steps_stdin (self : FallbackProcess) (s : FileWriteStream) :
  stdin self = Some s → FileWriteStream_aclose (wfile s) ∈ closing_steps self.
Proof.
  intros H. unfold closing_steps. rewrite H.
  apply elem_of_app. left. by left.
Qed.

Lemma closing_steps_stdout (self : FallbackProcess) (s : FileReadStream) :
  stdout self = Some s → FileReadStream_aclose (rfile s) ∈ closing_steps self.
Proof.
  intros H. unfold closing_steps. rewrite H.
  apply elem_of_app. right. apply elem_of_app. left. by left.
Qed.

Lemma closing_steps_stdin_raw (self : FallbackProcess) (f : nat) :
  stdin_raw self = Some f → file_close f ∈ closing_steps self.
Proof.
  intros H. unfold closing_steps. rewrite H.
  do 2 (apply elem_of_app; right). apply elem_of_app. left. by left.
Qed.

Lemma closing_steps_stdout_raw (self : FallbackProcess) (f : nat) :
  stdout_raw self = Some f → file_close f ∈ closing_steps self.
Proof.
  intros H. unfold closing_steps. rewrite H.
  do 3 (apply elem_of_app; right). apply elem_of_app. left. by left.
Qed.

Lemma closing_steps_stderr (self : FallbackProcess) (f : nat) :
  stderr self = Some f → file_close f ∈ closing_steps self.
Proof.
  intros H. unfold closing_steps. rewrite H.
  do 4 (apply elem_of_app; right). by left.
Qed.

(** A teardown that returned ran all its steps. *)
Lemma aexit_returned_run (E : environment) (self : FallbackProcess)
    (exc_type exc_val : option exn) (exc_tb : option traceback)
    (w w1 : world) (v : pyvalue) :
  __aexit__ E self exc_type exc_val exc_tb w = (Returns v, w1) →
  v = PyNone ∧ run_steps E (teardown_steps self) w = (Returns tt, w1).
Proof.
  rewrite aexit_run_steps.
  destruct (run_steps E (teardown_steps self) w) as [[[] | e] wa]; [| done].
  by intros [= <- <-].
Qed.

(** X4. A scoped exit that returns leaves nothing behind: the child has
    been reaped (its return code is known) and the file behind every
    stream and every raw handle the adapter holds is closed. *)
Theorem aexit_releases_everything (E : environment) (self : FallbackProcess)
    (exc_type exc_val : option exn) (exc_tb : option traceback)
    (w w1 : world) (v : pyvalue) :
  __aexit__ E self exc_type exc_val exc_tb w = (Returns v, w1) →
  is_Some (returncode w1 !! subprocess.pid (popen self)) ∧
  (∀ s, stdin self = Some s → wfile s ∈ closed w1) ∧
  (∀ s, stdout self = Some s → rfile s ∈ closed w1) ∧
  (∀ f, stdin_raw self = Some f → f ∈ closed w1) ∧
  (∀ f, stdout_raw self = Some f → f ∈ closed w1) ∧
  (∀ f, stderr self = Some f → f ∈ closed w1).
Proof.
  intros [_ Hrun]%aexit_returned_run.
  pose proof (run_steps_finishes E _ _ _ Hrun) as Hfin.
  split.
  { apply (Hfin (run_sync_Popen_wait (subprocess.pid (popen self))));
      [apply run_sync_wait_in_teardown | done]. }
  split.
  { intros s Hs. apply (Hfin (FileWriteStream_aclose (wfile s))); [| done].
    by apply closing_steps_in_teardown, closing_steps_stdin. }
  split.
  { intros s Hs. apply (Hfin (FileReadStream_aclose (rfile s))); [| done].
    by apply closing_steps_in_teardown, closing_steps_stdout. }
  split.
  { intros f Hf. apply (Hfin (file_close f)); [| done].
    by apply closing_steps_in_teardown, closing_steps_stdin_raw. }
  split.
  { intros f Hf. apply (Hfin (file_close f)); [| done].
    by apply closing_steps_in_teardown, closing_steps_stdout_raw. }
  intros f Hf. apply (Hfin (file_close f)); [| done].
  by apply closing_steps_in_teardown, closing_steps_stderr.
Qed.

Lemma aexit_releases_everything_witness :
  ∃ w1,
    __aexit__ quiet (__init__ child) None None None empty_world =
      (Returns PyNone, w1) ∧
    is_Some (returncode w1 !! 1) ∧ 3 ∈ closed w1 ∧ 4 ∈ closed w1 ∧
    5 ∈ closed w1.
Proof.
  destruct (aexit_returns_without_fault quiet (__init__ child) None None None
              empty_world) as [w1 Hfirst]; [reflexivity |].
  exists w1. split; [exact Hfirst |].
  destruct (aexit_releases_everything quiet (__init__ child) None None None
              empty_world w1 PyNone Hfirst)
    as (Hrc & _ & _ & Hin & Hout & Herr).
  split; [exact Hrc |].
  split; [by apply (Hin 3) |].
  split; [by apply (Hout 4) | by apply (Herr 5)].
Defined.

(** X5. For a child with both pipes, as the launcher requests them, a
    scoped exit that returns has made exactly these calls: terminate, wait,
    close of the write stream, close of the read stream, and then a second,
    direct close of the file behind each stream, before the error handle if
    there is one. *)
Theorem aexit_piped_child_calls (E : environment)
    (popen_obj : subprocess.Popen) (i o : nat)
    (exc_type exc_val : option exn) (exc_tb : option traceback)
    (w w1 : world) (v : pyvalue) :
  subprocess.stdin popen_obj = Some i →
  subprocess.stdout popen_obj = Some o →
  __aexit__ E (__init__ popen_obj) exc_type exc_val exc_tb w = (Returns v, w1) →
  calls w1 =
  calls w ++
  [Popen_terminate (subprocess.pid popen_obj);
   run_sync_Popen_wait (subprocess.pid popen_obj);
   FileWriteStream_aclose i; FileReadStream_aclose o;
   file_close i; file_close o] ++
  step_if_present (subprocess.stderr popen_obj) file_close.
Proof.
  intros Hi Ho [_ Hrun]%aexit_returned_run.
  pose proof (run_steps_log E (teardown_steps (__init__ popen_obj)) w) as Hlog.
  rewrite Hrun in Hlog. rewrite Hlog.
  destruct popen_obj as [p si so se]. simpl in Hi, Ho. subst si so.
  reflexivity.
Qed.

Lemma aexit_piped_child_calls_witness :
  ∃ w1,
    __aexit__ quiet (__init__ child) None None None empty_world =
      (Returns PyNone, w1) ∧
    calls w1 =
    [Popen_terminate 1; run_sync_Popen_wait 1;
     FileWriteStream_aclose 3; FileReadStream_aclose 4;
     file_close 3; file_close 4; file_close 5].
Proof.
  destruct (aexit_returns_without_fault quiet (__init__ child) None None None
              empty_world) as [w1 Hfirst]; [reflexivity |].
  exists w1. split; [exact Hfirst |].
  apply (aexit_piped_child_calls quiet child 3 4 None None None empty_world
           w1 PyNone); [reflexivity | reflexivity | exact Hfirst].
Defined.

(** X6. [wait()] makes one call, the wait for the child in a worker thread,
    and nothing else: it sends no termination request, closes no file and
    spawns nothing.  When it returns, it returns the child's return code,
    which is then on record; for a child already reaped that is the code
    recorded before.  When the call raises, its exception is the outcome
    and no return code is recorded. *)
Theorem wait_only_waits (E : environment) (self : FallbackProcess) (w : world) :
  let p := subprocess.pid (popen self) in
  let r := wait E self w in
  calls r.2 = calls w ++ [run_sync_Popen_wait p] ∧
  signalled r.2 = signalled w ∧
  closed r.2 = closed w ∧
  os_closes r.2 = os_closes w ∧
  spawns r.2 = spawns w ∧
  match r.1 with
  | Returns v =>
      fault E (run_sync_Popen_wait p) w = None ∧
      ∃ rc, v = PyInt rc ∧ returncode r.2 !! p = Some rc ∧
            (∀ rc0, returncode w !! p = Some rc0 →
                    rc = rc0 ∧ returncode r.2 = returncode w)
  | Raises e =>
      fault E (run_sync_Popen_wait p) w = Some e ∧
      returncode r.2 = returncode w
  end.
Proof.
  intros p r. subst r. unfold wait. fold p.
  destruct (invoke_cases E (run_sync_Popen_wait p) w)
    as [(e & Hf & ->) | [Hf ->]]; simpl; [done |].
  unfold wait_process. simpl.
  destruct (returncode w !! p) as [rc0 |] eqn:Hrc; simpl.
  - repeat split; try done.
    exists rc0. split; [done |]. split; [done |]. by intros ? [= <-].
  - repeat split; try done.
    exists (exit_status E p). split; [done |].
    split; [by rewrite lookup_insert_eq | done].
Qed.




(** X9. After a scoped exit that returned, the adapter can still be
    used without harm, provided the libraries keep their guarantee for
    reaped children: [wait()] returns the return code that teardown
    recorded, [terminate()] and [kill()] return [None], and none of them
    changes anything but the log of calls. *)
Theorem methods_after_teardown (E : environment) (self : FallbackProcess)
    (exc_type exc_val : option exn) (exc_tb : option traceback)
    (w w1 : world) (v : pyvalue) :
  no_fault_when_finished E →
  __aexit__ E self exc_type exc_val exc_tb w = (Returns v, w1) →
  let p := subprocess.pid (popen self) in
  ∃ rc, returncode w1 !! p = Some rc ∧
        wait E self w1 =
          (Returns (PyInt rc), record_call (run_sync_Popen_wait p) w1) ∧
        terminate E self w1 =
          (Returns PyNone, record_call (Popen_terminate p) w1) ∧
        kill E self w1 =
          (Returns PyNone, record_call (Popen_terminate p) w1).
Proof.
  intros Hlib [_ Hrun]%aexit_returned_run p.
  pose proof (run_steps_finishes E _ _ _ Hrun
                (run_sync_Popen_wait (subprocess.pid (popen self)))
                (run_sync_wait_in_teardown self)) as Hfin.
  destruct Hfin as [rc Hrc]; [done |]. fold p in Hrc.
  assert (Hterm : terminate E self w1 =
                  (Returns PyNone, record_call (Popen_terminate p) w1)).
  { unfold terminate, invoke. fold p.
    rewrite (Hlib (Popen_terminate p) w1) by (by exists rc).
    simpl. unfold terminate_process. simpl. by rewrite Hrc. }
  exists rc. split; [done |]. split; [| split; [done |]].
  - unfold wait, invoke. fold p.
    rewrite (Hlib (run_sync_Popen_wait p) w1) by (by exists rc).
    simpl. unfold wait_process. simpl. by rewrite Hrc.
  - unfold kill, mbind, M_bind. by rewrite Hterm.
Qed.

Lemma methods_after_teardown_witness :
  ∃ w1 rc,
    __aexit__ quiet (__init__ child) None None None empty_world =
      (Returns PyNone, w1) ∧
    returncode w1 !! 1 = Some rc ∧
    wait quiet (__init__ child) w1 =
      (Returns (PyInt rc), record_call (run_sync_Popen_wait 1) w1) ∧
    terminate quiet (__init__ child) w1 =
      (Returns PyNone, record_call (Popen_terminate 1) w1) ∧
    kill quiet (__init__ child) w1 =
      (Returns PyNone, record_call (Popen_terminate 1) w1).
Proof.
  destruct (aexit_returns_without_fault quiet (__init__ child) None None None
              empty_world) as [w1 Hfirst]; [reflexivity |].
  destruct (methods_after_teardown quiet (__init__ child) None None None
              empty_world w1 PyNone) as (rc & Hrest);
    [intros c w0 _; reflexivity | exact Hfirst |].
  exists w1, rc. split; [exact Hfirst | exact Hrest].
Defined.

(** * Further properties of the launcher *)

(** X10. Every spawn the launcher attempts, the first as the second,
    passes the command followed by the arguments as given, asks for pipes
    on standard input and output, sends standard error to the error log
    given, hands on the environment and the working directory unchanged
    and sets no buffering.  The launcher makes one or two attempts and does
    nothing else: whether it succeeds or fails, it terminates no process
    and closes no file. *)
Theorem create_windows_process_requests (E : environment) (command : string)
    (args : list string) (env : option (gmap string string))
    (errlog : option handle) (cwd : option string) (w : world) :
  let r := create_windows_process E command args env errlog cwd w in
  (∃ l, spawns r.2 = spawns w ++ l ∧
        (length l = 1 ∨ length l = 2) ∧
        Forall (fun q =>
                  subprocess.args q = command :: args ∧
                  subprocess.stdin_arg q = subprocess.PIPE ∧
                  subprocess.stdout_arg q = subprocess.PIPE ∧
                  subprocess.stderr_arg q = errlog ∧
                  subprocess.env_arg q = env ∧
                  subprocess.cwd_arg q = cwd ∧
                  subprocess.bufsize q = 0%Z) l) ∧
  calls r.2 = calls w ∧
  returncode r.2 = returncode w ∧
  signalled r.2 = signalled w ∧
  closed r.2 = closed w ∧
  os_closes r.2 = os_closes w.
Proof.
  intros r. subst r.
  unfold create_windows_process, try_except_M, subprocess_Popen,
    mbind, M_bind, mret, M_ret.
  match goal with
  | |- context [spawn E ?q w] =>
      set (first := q); destruct (spawn E first w) as [p1 | e1]
  end.
  - split; [| done]. exists [first]. split; [done |]. split; [by left |].
    by repeat constructor.
  - destruct (isinstance_Exception e1).
    + match goal with
      | |- context [spawn E ?q (record_spawn first w)] =>
          set (second := q);
          destruct (spawn E second (record_spawn first w)) as [p2 | e2]
      end.
      * split; [| done]. exists [first; second]. simpl.
        split; [by rewrite <- app_assoc |]. split; [by right |].
        by repeat constructor.
      * split; [| done]. exists [first; second]. simpl.
        split; [by rewrite <- app_assoc |]. split; [by right |].
        by repeat constructor.
    + split; [| done]. exists [first]. split; [done |]. split; [by left |].
      by repeat constructor.
Qed.
